(** * FuelEU: the compliance calculator and the pool allocator

    A shallow embedding of [server/domain/compliance-service.ts] and
    [server/domain/pooling-service.ts], and of the handler of
    [POST /api/pools] in [server/routes.ts], which calls them.

    Numbers.  The TypeScript [number]s of the two services are binary64
    floating-point numbers.  The services are embedded twice.

    - On the exact rationals [Q]: every theorem that speaks of all inputs
      is proved there, and is one that the program keeps on the finite
      numbers of binary64 as well, where differences and sums round but
      keep their order and their sign.
    - On the floating-point numbers themselves (module [Binary64]), to
      run the program where rounding, [NaN] or an infinity decide: what
      holds of the rationals only, such as the equality of two sums
      taken in different orders, is shown to fail there on an input.

    Arrays.  [results] is a [list]; an element is read with [get] and
    written with [set_cbAfter].  The two cursors are [Z], as
    [results.length - 1] is [-1] on the empty array. *)

From Stdlib Require Import String Ascii.
From Stdlib Require Import QArith Qminmax Qabs Lqa ZArith Lia.
From Stdlib Require Import List Bool Permutation Sorted.
From Equations Require Import Equations.
From Equations.Prop Require Logic.
From Stdlib Require Floats.
Import ListNotations.

Local Open Scope Q_scope.

(** ** Comparisons of numbers, as booleans *)

Definition Qleb (x y : Q) : bool := Qle_bool x y.
Definition Qltb (x y : Q) : bool := negb (Qle_bool y x).
Definition Qgeb (x y : Q) : bool := Qle_bool y x.
Definition Qgtb (x y : Q) : bool := negb (Qle_bool x y).

(** ** compliance-service.ts *)

Definition TARGET_INTENSITY_2025 : Q := 89.3368.
Definition ENERGY_CONVERSION_FACTOR : Q := 41000.

Definition calculateComplianceBalance (ghgIntensity fuelConsumption : Q) : Q :=
  let energyInScope := fuelConsumption * ENERGY_CONVERSION_FACTOR in
  let cb := (TARGET_INTENSITY_2025 - ghgIntensity) * energyInScope in
  cb.

(** [/] is the division of [Q], which is 0 on a zero divisor where the
    program has an infinity or [NaN]: what is proved of
    [calculatePercentDiff] is proved for a baseline other than 0. *)
Definition calculatePercentDiff (comparisonIntensity baselineIntensity : Q)
    : Q :=
  ((comparisonIntensity / baselineIntensity) - 1) * 100.

Definition isCompliant (ghgIntensity : Q) : bool :=
  Qleb ghgIntensity TARGET_INTENSITY_2025.

(** ** pooling-service.ts: data *)

(** The argument of [allocatePoolBalances]: [{ shipId; cbBefore }]. *)
Module Input.
Record t : Type := mk { shipId : string; cbBefore : Q }.
End Input.

(** The result of [allocatePoolBalances] and the argument of
    [validatePool]: [{ shipId; cbBefore; cbAfter }]. *)
Record PoolMember : Type := mkPoolMember
  { shipId : string; cbBefore : Q; cbAfter : Q }.

Record PoolValidationResult : Type := mkPoolValidationResult
  { valid : bool; errors : list string }.

(** ** Array.prototype.sort

    [sort] is stable and orders by the sign of the comparator: [a] stays
    before a later [b] unless [compareFn a b > 0].  Insertion from the
    right is such a sort. *)

Section Sort.
Context {A : Type} (compareFn : A -> A -> Q).

Fixpoint insert (a : A) (l : list A) : list A :=
  match l with
  | [] => [a]
  | b :: l' => if Qgtb (compareFn a b) 0 then b :: insert a l' else a :: l
  end.

Fixpoint sort (l : list A) : list A :=
  match l with
  | [] => []
  | a :: l' => insert a (sort l')
  end.
End Sort.

(** ** Reading and writing [results] *)

(** [results[i]].  The default stands for an index out of range, which
    the loop never reads: its cursors are indices of the array
    ([passes_cursors_in_range] and [running_reads_members] below). *)
Definition get (results : list PoolMember) (i : Z) : PoolMember :=
  nth (Z.to_nat i) results (mkPoolMember EmptyString 0 0).

Fixpoint update (results : list PoolMember) (n : nat)
    (f : PoolMember -> PoolMember) : list PoolMember :=
  match results, n with
  | [], _ => []
  | m :: l, O => f m :: l
  | m :: l, S n' => m :: update l n' f
  end.

(** [results[i].cbAfter = v] *)
Definition set_cbAfter (results : list PoolMember) (i : Z) (v : Q)
    : list PoolMember :=
  update results (Z.to_nat i)
    (fun m => mkPoolMember (shipId m) (cbBefore m) v).

(** ** allocatePoolBalances *)

Record Loop : Type := mkLoop
  { results : list PoolMember; surplusIdx : Z; deficitIdx : Z }.

(** The loop condition [surplusIdx < deficitIdx]. *)
Definition running (st : Loop) : bool :=
  (surplusIdx st <? deficitIdx st)%Z.

(** One pass through the body of the [while].  [surplus] and [deficit]
    are references into [results]: a write through one is a write to the
    array, and the reads after it see the array as written. *)
Definition body (st : Loop) : Loop :=
  let rs := results st in
  let s := surplusIdx st in
  let d := deficitIdx st in
  if Qleb (cbAfter (get rs s)) 0 then mkLoop rs (s + 1) d
  else if Qgeb (cbAfter (get rs d)) 0 then mkLoop rs s (d - 1)
  else
    let transferAmount :=
      Qmin (cbAfter (get rs s)) (Qabs (cbAfter (get rs d))) in
    let rs1 := set_cbAfter rs s (cbAfter (get rs s) - transferAmount) in
    let rs2 := set_cbAfter rs1 d (cbAfter (get rs1 d) + transferAmount) in
    let s' := if Qleb (cbAfter (get rs2 s)) 0 then (s + 1)%Z else s in
    let d' := if Qgeb (cbAfter (get rs2 d)) 0 then (d - 1)%Z else d in
    mkLoop rs2 s' d'.

(** The distance between the cursors, which every pass shortens. *)
Definition gap (st : Loop) : nat :=
  Z.to_nat (deficitIdx st - surplusIdx st).

(** The state on entry to the loop: the members sorted by [cbBefore],
    largest first, every [cbAfter] set to its [cbBefore], and the cursors at
    the two ends. *)
Definition entry (members : list Input.t) : Loop :=
  let sorted :=
    sort (fun a b => Input.cbBefore b - Input.cbBefore a) members in
  let results :=
    map (fun m => mkPoolMember (Input.shipId m) (Input.cbBefore m)
                               (Input.cbBefore m)) sorted in
  mkLoop results 0 (Z.of_nat (length results) - 1).

(** ** validatePool *)

(** [errors.push(e)] *)
Definition push (errors : list string) (e : string) : list string :=
  errors ++ [e].

Definition validatePool (members : list PoolMember) : PoolValidationResult :=
  let totalSum := fold_left (fun sum m => sum + cbBefore m) members 0 in
  let errors := [] in
  let errors :=
    if Qltb totalSum 0 then push errors "Total pool sum must be >= 0"%string
    else errors in
  let errors :=
    fold_left (fun errors member =>
      if Qltb (cbBefore member) 0 && Qltb (cbAfter member) (cbBefore member)
      then push errors
             ("Ship " ++ shipId member ++ " would exit worse than entry")%string
      else errors) members errors in
  let errors :=
    fold_left (fun errors member =>
      if Qgtb (cbBefore member) 0 && Qltb (cbAfter member) 0
      then push errors
             ("Ship " ++ shipId member ++ " would exit with negative CB")%string
      else errors) members errors in
  mkPoolValidationResult (Nat.eqb (length errors) 0) errors.

(** ** The specification's side *)

(** [sum(cbBefore)] and [sum(cbAfter)], as [reduce] computes them. *)
Definition sum_of {A : Type} (f : A -> Q) (l : list A) : Q :=
  fold_left (fun sum m => sum + f m) l 0.

(** A member and the balance it entered with. *)
Definition entered (m : PoolMember) : string * Q := (shipId m, cbBefore m).
Definition submitted (m : Input.t) : string * Q :=
  (Input.shipId m, Input.cbBefore m).

(** [n] passes through the body of the loop. *)
Fixpoint passes (n : nat) (st : Loop) : Loop :=
  match n with
  | O => st
  | S n' => passes n' (body st)
  end.

(** The three messages of [validatePool]. *)
Definition total_error : string := "Total pool sum must be >= 0".
Definition worse_error (id : string) : string :=
  ("Ship " ++ id ++ " would exit worse than entry")%string.
Definition negative_error (id : string) : string :=
  ("Ship " ++ id ++ " would exit with negative CB")%string.

(** The violations of rule 2 and of rule 3. *)
Definition exits_worse (m : PoolMember) : bool :=
  Qltb (cbBefore m) 0 && Qltb (cbAfter m) (cbBefore m).
Definition exits_negative (m : PoolMember) : bool :=
  Qgtb (cbBefore m) 0 && Qltb (cbAfter m) 0.

(** The surplus brought into a pool and the deficit it has to cover. *)
Definition surplus_total (members : list Input.t) : Q :=
  sum_of Input.cbBefore
    (filter (fun m => Qgtb (Input.cbBefore m) 0) members).
Definition deficit_total (members : list Input.t) : Q :=
  sum_of (fun m => Qabs (Input.cbBefore m))
    (filter (fun m => Qltb (Input.cbBefore m) 0) members).

(** A balance that has stayed on its side of zero, between zero and the
    balance the member entered with. *)
Definition same_side (m : PoolMember) : Prop :=
  (0 <= cbAfter m /\ cbAfter m <= cbBefore m) \/
  (cbBefore m <= cbAfter m /\ cbAfter m <= 0).

Definition scenarioA : list Input.t :=
  [Input.mk "A" 100; Input.mk "B" (-40); Input.mk "C" (-30)].

Definition scenarioB : list Input.t :=
  [Input.mk "A" 10; Input.mk "B" (-40)].

Definition scenarioE : list Input.t :=
  [Input.mk "A" 50; Input.mk "B" (-50)].

(** The cursors of a running loop are indices of the array: the reads of
    [get] inside the loop are reads of members. *)
Definition cursors_in_range (st : Loop) : Prop :=
  (0 <= surplusIdx st)%Z /\
  (deficitIdx st <= Z.of_nat (length (results st)) - 1)%Z.

(** The last character of a message. *)
Fixpoint last_char (s : string) : option ascii :=
  match s with
  | EmptyString => None
  | String c EmptyString => Some c
  | String _ s' => last_char s'
  end.

(** A pool that breaks all three rules at once. *)
Definition broken_pool : list PoolMember :=
  [mkPoolMember "A" 10 (-5); mkPoolMember "B" (-40) (-50)].

(** ** The calculator in binary64

    The same two lines on the floating-point numbers of the program, to
    evaluate scenario C as the program evaluates it. *)

Module Binary64.
Import Floats.
Local Open Scope float_scope.
#[local] Set Warnings "-inexact-float".

Definition TARGET_INTENSITY_2025 : float := 89.3368.
Definition ENERGY_CONVERSION_FACTOR : float := 41000.

Definition calculateComplianceBalance (ghgIntensity fuelConsumption : float)
    : float :=
  let energyInScope := fuelConsumption * ENERGY_CONVERSION_FACTOR in
  let cb := (TARGET_INTENSITY_2025 - ghgIntensity) * energyInScope in
  cb.

Definition scenarioC : float := calculateComplianceBalance 91.0 5000.
Definition scenarioC_returned : float := -340956000.00000066.
Definition scenarioC_specified : float := -340962000.

(** *** pooling-service.ts in binary64

    The allocator and the validator once more, line for line, on the
    floating-point numbers of the program.  A comparison with [NaN] is
    [false], so the loop need not end: it is run on fuel, and [None] is a
    loop that has not ended when the fuel has. *)

(** [Math.min]: [NaN] when an argument is, and of two zeros the negative
    one. *)
Definition Math_min (a b : float) : float :=
  if is_nan a || is_nan b then nan
  else if a <? b then a
  else if b <? a then b
  else match classify a with NZero => a | _ => b end.

Definition Math_abs (a : float) : float := abs a.

Module Input.
Record t : Type := mk { shipId : string; cbBefore : float }.
End Input.

Record PoolMember : Type := mkPoolMember
  { shipId : string; cbBefore : float; cbAfter : float }.

Record PoolValidationResult : Type := mkPoolValidationResult
  { valid : bool; errors : list string }.

Section Sort.
Context {A : Type} (compareFn : A -> A -> float).

(** A comparator that returns [NaN] is read as one that returns 0. *)
Fixpoint insert (a : A) (l : list A) : list A :=
  match l with
  | [] => [a]
  | b :: l' => if 0 <? compareFn a b then b :: insert a l' else a :: l
  end.

Fixpoint sort (l : list A) : list A :=
  match l with
  | [] => []
  | a :: l' => insert a (sort l')
  end.
End Sort.

Definition get (results : list PoolMember) (i : Z) : PoolMember :=
  nth (Z.to_nat i) results (mkPoolMember EmptyString 0 0).

Fixpoint update (results : list PoolMember) (n : nat)
    (f : PoolMember -> PoolMember) : list PoolMember :=
  match results, n with
  | [], _ => []
  | m :: l, O => f m :: l
  | m :: l, S n' => m :: update l n' f
  end.

Definition set_cbAfter (results : list PoolMember) (i : Z) (v : float)
    : list PoolMember :=
  update results (Z.to_nat i)
    (fun m => mkPoolMember (shipId m) (cbBefore m) v).

Record Loop : Type := mkLoop
  { results : list PoolMember; surplusIdx : Z; deficitIdx : Z }.

Definition running (st : Loop) : bool :=
  (surplusIdx st <? deficitIdx st)%Z.

Definition body (st : Loop) : Loop :=
  let rs := results st in
  let s := surplusIdx st in
  let d := deficitIdx st in
  if cbAfter (get rs s) <=? 0 then mkLoop rs (s + 1) d
  else if 0 <=? cbAfter (get rs d) then mkLoop rs s (d - 1)
  else
    let transferAmount :=
      Math_min (cbAfter (get rs s)) (Math_abs (cbAfter (get rs d))) in
    let rs1 := set_cbAfter rs s (cbAfter (get rs s) - transferAmount) in
    let rs2 := set_cbAfter rs1 d (cbAfter (get rs1 d) + transferAmount) in
    let s' := if cbAfter (get rs2 s) <=? 0 then (s + 1)%Z else s in
    let d' := if 0 <=? cbAfter (get rs2 d) then (d - 1)%Z else d in
    mkLoop rs2 s' d'.

Fixpoint passes (n : nat) (st : Loop) : Loop :=
  match n with
  | O => st
  | S n' => passes n' (body st)
  end.

Fixpoint while_loop (fuel : nat) (st : Loop) : option Loop :=
  match fuel with
  | O => None
  | S fuel' => if running st then while_loop fuel' (body st) else Some st
  end.

Definition entry (members : list Input.t) : Loop :=
  let sorted :=
    sort (fun a b => Input.cbBefore b - Input.cbBefore a) members in
  let results :=
    map (fun m => mkPoolMember (Input.shipId m) (Input.cbBefore m)
                               (Input.cbBefore m)) sorted in
  mkLoop results 0 (Z.of_nat (List.length results) - 1).

Definition allocatePoolBalances (fuel : nat) (members : list Input.t)
    : option (list PoolMember) :=
  option_map results (while_loop fuel (entry members)).

Definition validatePool (members : list PoolMember) : PoolValidationResult :=
  let totalSum := fold_left (fun sum m => sum + cbBefore m) members 0 in
  let errors := [] in
  let errors :=
    if totalSum <? 0 then errors ++ ["Total pool sum must be >= 0"%string]
    else errors in
  let errors :=
    fold_left (fun errors member =>
      if (cbBefore member <? 0) && (cbAfter member <? cbBefore member)
      then errors ++
             [("Ship " ++ shipId member ++ " would exit worse than entry")
                %string]
      else errors) members errors in
  let errors :=
    fold_left (fun errors member =>
      if (0 <? cbBefore member) && (cbAfter member <? 0)
      then errors ++
             [("Ship " ++ shipId member ++ " would exit with negative CB")
                %string]
      else errors) members errors in
  mkPoolValidationResult (Nat.eqb (List.length errors) 0) errors.

(** [members.reduce((sum, m) => sum + m.cbBefore, 0)] and the same of
    [cbAfter]. *)
Definition sum_cbBefore (members : list Input.t) : float :=
  fold_left (fun sum m => sum + Input.cbBefore m) members 0.
Definition sum_cbAfter (members : list PoolMember) : float :=
  fold_left (fun sum m => sum + cbAfter m) members 0.

(** Balances that sum to 0 in the order given and to -1 in the order of
    the sort: 2^53 + 2 - 1 rounds to 2^53. *)
Definition order_pool : list Input.t :=
  [Input.mk "C" (-9007199254740992); Input.mk "X" 9007199254740994;
   Input.mk "B" (-1); Input.mk "B2" (-1)].


(** Balances that are no finite numbers. *)
Definition infinite_pool : list Input.t :=
  [Input.mk "A" infinity; Input.mk "B" neg_infinity].
Definition nan_pool : list Input.t :=
  [Input.mk "A" nan; Input.mk "B" (-1)].

(** The balances of four routes of the seed of [scripts/migrate.ts]. *)
Definition seed_pool : list Input.t :=
  [Input.mk "R001" (calculateComplianceBalance 91.0 5000);
   Input.mk "R002" (calculateComplianceBalance 88.0 4800);
   Input.mk "R005" (calculateComplianceBalance 90.5 4950);
   Input.mk "R008" (calculateComplianceBalance 86.5 4600)].

End Binary64.

(** ** Further notions for the allocator *)

(** Members in the order the sort leaves them: no member before one with
    a larger [cbBefore]. *)
Definition largest_first (l : list PoolMember) : Prop :=
  StronglySorted (fun a b => cbBefore b <= cbBefore a) l.

(** What the cursors have left behind: no surplus is held before
    [surplusIdx] and no deficit after [deficitIdx]. *)
Definition settled (st : Loop) : Prop :=
  (forall k : Z,
     (0 <= k < surplusIdx st)%Z -> cbAfter (get (results st) k) <= 0) /\
  (forall k : Z,
     (deficitIdx st < k)%Z -> 0 <= cbAfter (get (results st) k)).

(** What the cursors have not reached: a surplus after [surplusIdx] and a
    deficit before [deficitIdx] are as they entered. *)
Definition untouched (st : Loop) : Prop :=
  (forall k : Z,
     (surplusIdx st < k)%Z -> 0 < cbBefore (get (results st) k) ->
     cbAfter (get (results st) k) == cbBefore (get (results st) k)) /\
  (forall k : Z,
     (0 <= k < deficitIdx st)%Z -> cbBefore (get (results st) k) < 0 ->
     cbAfter (get (results st) k) == cbBefore (get (results st) k)).

(** The members of a result, submitted again with the balances they
    left with. *)
Definition resubmit (allocated : list PoolMember) : list Input.t :=
  map (fun m => Input.mk (shipId m) (cbAfter m)) allocated.

(** * Termination of the loop *)

(** *** Booleans and propositions *)

Lemma Qleb_true x y : Qleb x y = true <-> x <= y.
Proof. apply Qle_bool_iff. Qed.

Lemma Qleb_false x y : Qleb x y = false <-> y < x.
Proof.
  unfold Qleb. rewrite <- not_true_iff_false, Qle_bool_iff.
  split; [apply Qnot_le_lt | apply Qlt_not_le].
Qed.

Lemma Qgeb_true x y : Qgeb x y = true <-> y <= x.
Proof. apply Qleb_true. Qed.

Lemma Qgeb_false x y : Qgeb x y = false <-> x < y.
Proof. apply Qleb_false. Qed.

Lemma Qltb_true x y : Qltb x y = true <-> x < y.
Proof. unfold Qltb. rewrite negb_true_iff. apply Qleb_false. Qed.

Lemma Qltb_false x y : Qltb x y = false <-> y <= x.
Proof. unfold Qltb. rewrite negb_false_iff. apply Qleb_true. Qed.

Lemma Qgtb_true x y : Qgtb x y = true <-> y < x.
Proof. unfold Qgtb. rewrite negb_true_iff. apply Qleb_false. Qed.

Lemma Qgtb_false x y : Qgtb x y = false <-> x <= y.
Proof. unfold Qgtb. rewrite negb_false_iff. apply Qleb_true. Qed.

(** Turns every boolean comparison among the hypotheses into its
    proposition. *)
Ltac props :=
  repeat match goal with
  | H : Qleb _ _ = true |- _ => apply Qleb_true in H
  | H : Qleb _ _ = false |- _ => apply Qleb_false in H
  | H : Qgeb _ _ = true |- _ => apply Qgeb_true in H
  | H : Qgeb _ _ = false |- _ => apply Qgeb_false in H
  | H : Qltb _ _ = true |- _ => apply Qltb_true in H
  | H : Qltb _ _ = false |- _ => apply Qltb_false in H
  | H : Qgtb _ _ = true |- _ => apply Qgtb_true in H
  | H : Qgtb _ _ = false |- _ => apply Qgtb_false in H
  end.

(** *** Reads after writes *)

Lemma update_length rs n f : length (update rs n f) = length rs.
Proof.
  revert n; induction rs as [|m l IH]; intros [|n]; simpl; auto.
Qed.

Lemma nth_update_same rs n f dflt :
  (n < length rs)%nat -> nth n (update rs n f) dflt = f (nth n rs dflt).
Proof.
  revert n; induction rs as [|m l IH]; intros [|n]; simpl; intros H;
    try lia; auto.
  apply IH; lia.
Qed.

Lemma nth_update_other rs n k f dflt :
  n <> k -> nth k (update rs n f) dflt = nth k rs dflt.
Proof.
  revert n k; induction rs as [|m l IH]; intros [|n] [|k]; simpl;
    intros H; auto; try congruence.
Qed.

(** A member that is read with a nonzero [cbAfter] is a member of the
    array: the index is in range. *)
Lemma get_in_range rs i :
  ~ cbAfter (get rs i) == 0 -> (Z.to_nat i < length rs)%nat.
Proof.
  intros H. destruct (Nat.lt_ge_cases (Z.to_nat i) (length rs)) as [Hlt|Hge];
    [exact Hlt|].
  exfalso; apply H. unfold get. rewrite nth_overflow by exact Hge.
  reflexivity.
Qed.

(** The amount transferred exhausts the surplus or clears the deficit. *)
Lemma transfer_reaches_zero (s d : Q) :
  0 < s -> d < 0 ->
  s - Qmin s (Qabs d) == 0 \/ d + Qmin s (Qabs d) == 0.
Proof.
  intros Hs Hd.
  assert (Ha : Qabs d == - d) by (apply Qabs_neg; lra).
  destruct (Q.min_spec s (Qabs d)) as [[_ ->]|[_ ->]]; [left|right]; lra.
Qed.

(** What the transfer branch of [body] leaves at the two cursors. *)
Lemma transfer_reads rs s d :
  cbAfter (get rs s) > 0 -> cbAfter (get rs d) < 0 ->
  let t := Qmin (cbAfter (get rs s)) (Qabs (cbAfter (get rs d))) in
  let rs1 := set_cbAfter rs s (cbAfter (get rs s) - t) in
  let rs2 := set_cbAfter rs1 d (cbAfter (get rs1 d) + t) in
  Z.to_nat s <> Z.to_nat d /\
  (Z.to_nat s < length rs)%nat /\ (Z.to_nat d < length rs)%nat /\
  get rs1 d = get rs d /\
  cbAfter (get rs2 s) = cbAfter (get rs s) - t /\
  cbAfter (get rs2 d) = cbAfter (get rs d) + t.
Proof.
  intros Hs Hd t rs1 rs2.
  assert (Hsd : Z.to_nat s <> Z.to_nat d).
  { intros E. unfold get in Hs, Hd. rewrite E in Hs. lra. }
  assert (Hsr : (Z.to_nat s < length rs)%nat) by (apply get_in_range; lra).
  assert (Hdr : (Z.to_nat d < length rs)%nat) by (apply get_in_range; lra).
  assert (E1 : get rs1 d = get rs d).
  { unfold rs1, set_cbAfter, get. apply nth_update_other, Hsd. }
  repeat split; auto.
  - unfold rs2, set_cbAfter, get. rewrite nth_update_other by congruence.
    unfold rs1, set_cbAfter. rewrite nth_update_same by exact Hsr.
    reflexivity.
  - unfold rs2, set_cbAfter, get. rewrite nth_update_same
      by (unfold rs1, set_cbAfter; rewrite update_length; exact Hdr).
    cbn [cbAfter]. fold (get rs1 d). rewrite E1. reflexivity.
Qed.

Lemma body_gap (st : Loop) :
  running st = true -> (gap (body st) < gap st)%nat.
Proof.
  unfold running, gap, body. intros Hrun.
  apply Z.ltb_lt in Hrun.
  destruct (Qleb _ 0) eqn:Hs; cbn [surplusIdx deficitIdx]; [lia|].
  destruct (Qgeb _ 0) eqn:Hd; cbn [surplusIdx deficitIdx]; [lia|].
  props.
  destruct (transfer_reads _ _ _ Hs Hd) as (_ & _ & _ & E1 & Es & Ed).
  rewrite E1 in *.
  destruct (Qleb (cbAfter (get _ (surplusIdx st))) 0) eqn:Hs';
    destruct (Qgeb (cbAfter (get _ (deficitIdx st))) 0) eqn:Hd';
    cbn [surplusIdx deficitIdx]; try lia.
  exfalso. props. rewrite Es in Hs'. rewrite Ed in Hd'.
  destruct (transfer_reaches_zero _ _ Hs Hd); lra.
Qed.

(** ** The loop and the allocator

    [while (surplusIdx < deficitIdx) { body }], by recursion on the
    distance between the cursors. *)
Equations? while_loop (st : Loop) : Loop by wf (gap st) lt :=
  while_loop st with Logic.inspect (running st) => {
    | exist _ true Hrun => while_loop (body st);
    | exist _ false _ => st }.
Proof. apply body_gap; exact Hrun. Qed.

Definition allocatePoolBalances (members : list Input.t) : list PoolMember :=
  results (while_loop (entry members)).

(** ** routes.ts: POST /api/pools

    The handler as a function of the body of the request and of what the
    storage answers.  The rows of [routes] and [ship_compliance] are
    records of their columns; the two reads of the handler,
    [storage.getRouteByRouteId] and [storage.getShipCompliance], are the
    variables of the section.  A response is its status and its body; the
    [poolId] of a created pool is the storage's and is left out, and the
    members of the response are the rows written with
    [storage.createPoolMember].  A call of the storage that throws, which
    the handler answers with status 500, is outside this model. *)

Module Route.
Record t : Type := mk
  { id : Z; routeId : string; vesselType : string; fuelType : string;
    year : Z; ghgIntensity : Q; fuelConsumption : Q; distance : Q;
    totalEmissions : Q; isBaseline : bool }.
End Route.

Module ShipCompliance.
Record t : Type := mk
  { id : Z; shipId : string; year : Z; cbGco2eq : Q; createdAt : Z }.
End ShipCompliance.

Inductive PoolsResponse : Type :=
| Status400 (error : string) (errors : option (list string))
| Status200 (members : list PoolMember) (totalSum : Q).

Section Pools.
Variable getRouteByRouteId : string -> option Route.t.
Variable getShipCompliance : string -> Z -> option ShipCompliance.t.

(** The loop over the members of the request: the balance of a member is
    read from the storage, and the first member without a route ends the
    request. *)
Fixpoint verifyMembers (year : Z) (members verifiedMembers : list Input.t)
    : string + list Input.t :=
  match members with
  | [] => inr verifiedMembers
  | member :: rest =>
      match getRouteByRouteId (Input.shipId member) with
      | None =>
          inl ("Route not found for ship " ++ Input.shipId member)%string
      | Some route =>
          let actualCB :=
            calculateComplianceBalance (Route.ghgIntensity route)
                                       (Route.fuelConsumption route) in
          let compliance := getShipCompliance (Input.shipId member) year in
          let cbToUse :=
            match compliance with
            | Some c => ShipCompliance.cbGco2eq c
            | None => actualCB
            end in
          verifyMembers year rest
            (verifiedMembers ++ [Input.mk (Input.shipId member) cbToUse])
      end
  end.

(** [year] and [members] are [None] when the body has no such field;
    [!year] also holds of the year 0. *)
Definition postPools (year : option Z) (members : option (list Input.t))
    : PoolsResponse :=
  match year, members with
  | Some year, Some members =>
      if (year =? 0)%Z || (length members <? 2)%nat
      then Status400 "Pool requires year and at least 2 members" None
      else
        match verifyMembers year members [] with
        | inl error => Status400 error None
        | inr verifiedMembers =>
            let allocated := allocatePoolBalances verifiedMembers in
            let validation := validatePool allocated in
            if negb (valid validation)
            then Status400 "Pool validation failed"
                           (Some (errors validation))
            else
              let totalSum :=
                fold_left (fun sum m => sum + Input.cbBefore m)
                          verifiedMembers 0 in
              Status200 allocated totalSum
        end
  | _, _ => Status400 "Pool requires year and at least 2 members" None
  end.

End Pools.

(** A storage for the examples: the first three routes of the seed of
    [scripts/migrate.ts], and one stored balance, for [R001] in 2025. *)
Definition seedRoutes (routeId : string) : option Route.t :=
  if String.eqb routeId "R001"
  then Some (Route.mk 1 "R001" "Container" "HFO" 2024 91.0 5000 12000 4500
                      true)
  else if String.eqb routeId "R002"
  then Some (Route.mk 2 "R002" "BulkCarrier" "LNG" 2024 88.0 4800 11500 4200
                      false)
  else if String.eqb routeId "R003"
  then Some (Route.mk 3 "R003" "Tanker" "MGO" 2024 93.5 5100 12500 4700
                      false)
  else None.

Definition oneBalance (shipId : string) (year : Z)
    : option ShipCompliance.t :=
  if String.eqb shipId "R001" && (year =? 2025)%Z
  then Some (ShipCompliance.mk 1 "R001" 2025 (-100000000) 0)
  else None.

(** * The loop *)

Lemma while_loop_step st :
  while_loop st = if running st then while_loop (body st) else st.
Proof.
  rewrite while_loop_equation_1. unfold Logic.inspect.
  generalize (@eq_refl bool (running st)).
  generalize (running st) at 2 4 5.
  intros [|] E; reflexivity.
Qed.

(** The loop runs the body until the cursors meet or cross, and that
    takes at most [gap] passes. *)
Lemma while_loop_passes st :
  exists n : nat,
    (n <= gap st)%nat /\
    while_loop st = passes n st /\
    running (passes n st) = false /\
    forall k : nat, (k < n)%nat -> running (passes k st) = true.
Proof.
  remember (gap st) as g eqn:Eg. revert st Eg.
  induction g as [g IH] using lt_wf_ind. intros st Eg.
  rewrite while_loop_step. destruct (running st) eqn:Hrun.
  - pose proof (body_gap st Hrun) as Hlt.
    destruct (IH (gap (body st)) ltac:(lia) (body st) eq_refl)
      as (n & Hn & Hw & Hstop & Hgo).
    exists (S n). split; [lia|]. split; [exact Hw|]. split; [exact Hstop|].
    intros [|k] Hk; simpl; [exact Hrun | apply Hgo; lia].
  - exists O. split; [lia|]. split; [reflexivity|]. split; [exact Hrun|].
    intros k Hk; lia.
Qed.

(** A property that every pass of a running loop keeps holds when the
    loop is left. *)
Lemma while_loop_invariant (P : Loop -> Prop) :
  (forall st, running st = true -> P st -> P (body st)) ->
  forall st, P st -> P (while_loop st).
Proof.
  intros Hbody st HP.
  destruct (while_loop_passes st) as (n & _ & -> & _ & Hgo).
  revert st HP Hgo. induction n as [|n IH]; intros st HP Hgo; simpl.
  - exact HP.
  - apply IH.
    + apply Hbody; [apply (Hgo O); lia | exact HP].
    + intros k Hk. apply (Hgo (S k)). lia.
Qed.

(** * Sums *)

Lemma sum_of_from {A} (f : A -> Q) l a :
  fold_left (fun sum m => sum + f m) l a == a + sum_of f l.
Proof.
  unfold sum_of. revert a. induction l as [|x l IH]; intros a; simpl.
  - ring.
  - rewrite (IH (a + f x)), (IH (0 + f x)). ring.
Qed.

Lemma sum_of_cons {A} (f : A -> Q) x l :
  sum_of f (x :: l) == f x + sum_of f l.
Proof.
  unfold sum_of at 1. simpl. rewrite sum_of_from. ring.
Qed.

Lemma sum_of_map {A B} (f : B -> Q) (g : A -> B) l :
  sum_of f (map g l) == sum_of (fun x => f (g x)) l.
Proof.
  induction l as [|x l IH]; simpl; [reflexivity|].
  rewrite !sum_of_cons, IH. reflexivity.
Qed.

Lemma sum_of_perm {A} (f : A -> Q) l l' :
  Permutation l l' -> sum_of f l == sum_of f l'.
Proof.
  induction 1 as [|x l l' _ IH|x y l|l l' l'' _ IH1 _ IH2].
  - reflexivity.
  - rewrite !sum_of_cons, IH. reflexivity.
  - rewrite !sum_of_cons. ring.
  - rewrite IH1. exact IH2.
Qed.

Lemma sum_of_update rs n f dflt :
  (n < length rs)%nat ->
  sum_of cbAfter (update rs n f) ==
  sum_of cbAfter rs - cbAfter (nth n rs dflt) + cbAfter (f (nth n rs dflt)).
Proof.
  revert n; induction rs as [|m l IH]; intros [|n]; simpl; intros H;
    try lia; rewrite !sum_of_cons.
  - ring.
  - rewrite (IH n) by lia. ring.
Qed.

(** * The sort *)

Lemma insert_perm {A} (c : A -> A -> Q) a l :
  Permutation (insert c a l) (a :: l).
Proof.
  induction l as [|b l IH]; simpl; [reflexivity|].
  destruct (Qgtb _ 0); [|reflexivity].
  rewrite IH. apply perm_swap.
Qed.

Lemma sort_perm {A} (c : A -> A -> Q) l : Permutation (sort c l) l.
Proof.
  induction l as [|a l IH]; simpl; [reflexivity|].
  rewrite insert_perm, IH. reflexivity.
Qed.

(** * What a pass of the loop keeps *)

Lemma update_map {B} (g : PoolMember -> B) rs n f :
  (forall m, g (f m) = g m) -> map g (update rs n f) = map g rs.
Proof.
  intros Hg. revert n; induction rs as [|m l IH]; intros [|n]; simpl;
    rewrite ?Hg, ?IH; reflexivity.
Qed.

Lemma update_Forall (P : PoolMember -> Prop) rs n f dflt :
  Forall P rs -> ((n < length rs)%nat -> P (f (nth n rs dflt))) ->
  Forall P (update rs n f).
Proof.
  intros HF. revert n. induction HF as [|m l Hm Hl IH]; intros [|n] Hf;
    simpl in *; constructor; auto.
  - apply Hf; lia.
  - apply IH. intros Hn. apply Hf. lia.
Qed.

Lemma set_cbAfter_entered rs i v :
  map entered (set_cbAfter rs i v) = map entered rs.
Proof. apply update_map. reflexivity. Qed.

(** No pass adds, drops or reorders a member, or touches a [shipId] or a
    [cbBefore]. *)
Lemma body_entered st :
  map entered (results (body st)) = map entered (results st).
Proof.
  unfold body.
  destruct (Qleb _ 0); [reflexivity|].
  destruct (Qgeb _ 0); [reflexivity|].
  cbn [results]. rewrite !set_cbAfter_entered. reflexivity.
Qed.

Lemma body_length st :
  length (results (body st)) = length (results st).
Proof.
  rewrite <- (length_map entered), body_entered. apply length_map.
Qed.

Lemma sum_of_set_cbAfter rs i v :
  (Z.to_nat i < length rs)%nat ->
  sum_of cbAfter (set_cbAfter rs i v) ==
  sum_of cbAfter rs - cbAfter (get rs i) + v.
Proof.
  intros Hi. unfold set_cbAfter, get.
  rewrite (sum_of_update _ _ _ (mkPoolMember EmptyString 0 0)) by exact Hi.
  reflexivity.
Qed.

Lemma set_cbAfter_length rs i v :
  length (set_cbAfter rs i v) = length rs.
Proof. apply update_length. Qed.

(** What one cursor gives up the other receives. *)
Lemma body_sum st :
  sum_of cbAfter (results (body st)) == sum_of cbAfter (results st).
Proof.
  unfold body.
  destruct (Qleb _ 0) eqn:Hs; [reflexivity|].
  destruct (Qgeb _ 0) eqn:Hd; [reflexivity|].
  props. cbn [results].
  destruct (transfer_reads _ _ _ Hs Hd) as (_ & Hsr & Hdr & E1 & _ & _).
  rewrite sum_of_set_cbAfter by (rewrite set_cbAfter_length; exact Hdr).
  rewrite E1, sum_of_set_cbAfter by exact Hsr.
  ring.
Qed.

(** The amount transferred is positive, and no more than the surplus has
    or the deficit lacks. *)
Lemma transfer_amount (s d : Q) :
  0 < s -> d < 0 ->
  0 < Qmin s (Qabs d) /\ Qmin s (Qabs d) <= s /\ Qmin s (Qabs d) <= - d.
Proof.
  intros Hs Hd.
  assert (Ha : Qabs d == - d) by (apply Qabs_neg; lra).
  destruct (Q.min_spec s (Qabs d)) as [[Hlt ->]|[Hle ->]];
    repeat split; lra.
Qed.

Lemma same_side_get rs i : Forall same_side rs -> same_side (get rs i).
Proof.
  intros HF. unfold get.
  destruct (Nat.lt_ge_cases (Z.to_nat i) (length rs)) as [Hlt|Hge].
  - apply Forall_nth; assumption.
  - rewrite nth_overflow by exact Hge. left. cbn. split; apply Qle_refl.
Qed.

Lemma set_cbAfter_Forall (P : PoolMember -> Prop) rs i v :
  Forall P rs ->
  P (mkPoolMember (shipId (get rs i)) (cbBefore (get rs i)) v) ->
  Forall P (set_cbAfter rs i v).
Proof.
  intros HF HP. unfold set_cbAfter.
  apply (update_Forall _ _ _ _ (mkPoolMember EmptyString 0 0) HF).
  intros _. exact HP.
Qed.

(** A surplus is only drawn down to zero and a deficit only filled up to
    zero: every balance stays on the side of zero it started on. *)
Lemma body_same_side st :
  Forall same_side (results st) -> Forall same_side (results (body st)).
Proof.
  intros HF. unfold body.
  destruct (Qleb _ 0) eqn:Hs; [exact HF|].
  destruct (Qgeb _ 0) eqn:Hd; [exact HF|].
  props. cbn [results].
  destruct (transfer_reads _ _ _ Hs Hd) as (_ & _ & _ & E1 & _ & _).
  destruct (transfer_amount _ _ Hs Hd) as (Ht0 & Hts & Htd).
  pose proof (same_side_get _ (surplusIdx st) HF) as [[Hs0 Hs1]|[Hs0 Hs1]];
    [|lra].
  pose proof (same_side_get _ (deficitIdx st) HF) as [[Hd0 Hd1]|[Hd0 Hd1]];
    [lra|].
  apply set_cbAfter_Forall; [apply set_cbAfter_Forall; [exact HF|]|].
  - left. cbn. split; lra.
  - rewrite E1. right. cbn. split; lra.
Qed.

Lemma body_cursors_in_range st :
  cursors_in_range st -> cursors_in_range (body st).
Proof.
  unfold cursors_in_range. intros [Hs Hd]. rewrite body_length.
  unfold body.
  repeat match goal with
  | |- context [if ?b then _ else _] => destruct b
  end; cbn [surplusIdx deficitIdx]; lia.
Qed.


Lemma running_reads_members st :
  cursors_in_range st -> running st = true ->
  (Z.to_nat (surplusIdx st) < length (results st))%nat /\
  (Z.to_nat (deficitIdx st) < length (results st))%nat.
Proof.
  unfold cursors_in_range, running. intros [Hs Hd] Hrun.
  apply Z.ltb_lt in Hrun. lia.
Qed.

(** * The state in which the loop is left *)

Section Left.
Variable members : list Input.t.

Lemma entry_results :
  results (entry members) =
  map (fun m => mkPoolMember (Input.shipId m) (Input.cbBefore m)
                             (Input.cbBefore m))
      (sort (fun a b => Input.cbBefore b - Input.cbBefore a) members).
Proof. reflexivity. Qed.

Lemma entry_entered :
  Permutation (map entered (results (entry members)))
              (map submitted members).
Proof.
  rewrite entry_results, map_map. unfold entered; cbn [shipId cbBefore].
  apply Permutation_map, sort_perm.
Qed.

Lemma final_entered :
  map entered (allocatePoolBalances members) =
  map entered (results (entry members)).
Proof.
  unfold allocatePoolBalances.
  apply (while_loop_invariant
    (fun st => map entered (results st) =
               map entered (results (entry members)))); [|reflexivity].
  intros st _ IH. rewrite body_entered. exact IH.
Qed.

Lemma final_sum :
  sum_of cbAfter (allocatePoolBalances members) ==
  sum_of cbAfter (results (entry members)).
Proof.
  unfold allocatePoolBalances.
  apply (while_loop_invariant
    (fun st => sum_of cbAfter (results st) ==
               sum_of cbAfter (results (entry members)))); [|reflexivity].
  intros st _ IH. rewrite body_sum. exact IH.
Qed.

Lemma final_same_side : Forall same_side (allocatePoolBalances members).
Proof.
  unfold allocatePoolBalances.
  apply (while_loop_invariant (fun st => Forall same_side (results st))).
  - intros st _. apply body_same_side.
  - rewrite entry_results. apply Forall_forall. intros m Hm.
    apply in_map_iff in Hm as (x & <- & _). unfold same_side; cbn.
    destruct (Qlt_le_dec (Input.cbBefore x) 0); [right|left]; lra.
Qed.

Lemma final_cursors_in_range : cursors_in_range (while_loop (entry members)).
Proof.
  apply (while_loop_invariant cursors_in_range).
  - intros st _. apply body_cursors_in_range.
  - unfold cursors_in_range, entry; cbn. lia.
Qed.

Lemma sum_cbBefore_entered rs :
  sum_of cbBefore rs == sum_of snd (map entered rs).
Proof. rewrite sum_of_map. reflexivity. Qed.

Lemma final_sum_cbBefore :
  sum_of cbBefore (allocatePoolBalances members) ==
  sum_of Input.cbBefore members.
Proof.
  rewrite sum_cbBefore_entered, final_entered.
  rewrite (sum_of_perm _ _ _ entry_entered), sum_of_map. reflexivity.
Qed.

End Left.

(** * The validation *)

Lemma fold_left_push (p : PoolMember -> bool) (g : PoolMember -> string)
    members acc :
  fold_left (fun errors member =>
               if p member then push errors (g member) else errors)
            members acc
  = acc ++ map g (filter p members).
Proof.
  revert acc. induction members as [|m l IH]; intros acc; simpl.
  - symmetry. apply app_nil_r.
  - rewrite IH. destruct (p m); [|reflexivity].
    unfold push. rewrite <- app_assoc. reflexivity.
Qed.

Lemma validatePool_errors members :
  errors (validatePool members) =
  (if Qltb (sum_of cbBefore members) 0 then [total_error] else [])
  ++ map (fun m => worse_error (shipId m)) (filter exits_worse members)
  ++ map (fun m => negative_error (shipId m))
         (filter exits_negative members).
Proof.
  unfold validatePool. cbn [errors].
  rewrite (fold_left_push exits_negative
             (fun m => negative_error (shipId m))).
  rewrite (fold_left_push exits_worse (fun m => worse_error (shipId m))).
  fold (sum_of cbBefore members).
  destruct (Qltb _ 0); unfold push; simpl; rewrite <- ?app_assoc;
    reflexivity.
Qed.

Lemma validatePool_valid members :
  valid (validatePool members) = true <-> errors (validatePool members) = [].
Proof.
  unfold validatePool. cbn [valid errors].
  rewrite Nat.eqb_eq. apply length_zero_iff_nil.
Qed.

(** *** The messages *)

Lemma append_nonempty (s t : string) :
  t <> EmptyString -> (s ++ t)%string <> EmptyString.
Proof. destruct s; [trivial | discriminate]. Qed.

Lemma last_char_append (s t : string) :
  t <> EmptyString -> last_char (s ++ t) = last_char t.
Proof.
  intros Ht. induction s as [|c s IH]; [reflexivity|].
  cbn [String.append]. cbn [last_char].
  destruct (s ++ t)%string eqn:E; [|exact IH].
  exfalso. exact (append_nonempty s t Ht E).
Qed.

Lemma last_char_worse id : last_char (worse_error id) = Some "y"%char.
Proof.
  unfold worse_error.
  rewrite last_char_append by (apply append_nonempty; discriminate).
  rewrite last_char_append by discriminate. reflexivity.
Qed.

Lemma last_char_negative id : last_char (negative_error id) = Some "B"%char.
Proof.
  unfold negative_error.
  rewrite last_char_append by (apply append_nonempty; discriminate).
  rewrite last_char_append by discriminate. reflexivity.
Qed.

Lemma append_length (s t : string) :
  String.length (s ++ t) = (String.length s + String.length t)%nat.
Proof. induction s as [|c s IH]; simpl; [|rewrite IH]; reflexivity. Qed.

Lemma append_inj_l (s s' t : string) :
  (s ++ t)%string = (s' ++ t)%string -> s = s'.
Proof.
  revert s'. induction s as [|c s IH]; intros [|c' s'] E; simpl in E.
  - reflexivity.
  - apply (f_equal String.length) in E. simpl in E.
    rewrite append_length in E. lia.
  - apply (f_equal String.length) in E. simpl in E.
    rewrite append_length in E. lia.
  - injection E as -> E. f_equal. apply IH, E.
Qed.

Lemma worse_error_inj id id' : worse_error id = worse_error id' -> id = id'.
Proof.
  unfold worse_error. intros E. cbn in E.
  injection E as E. apply append_inj_l in E. exact E.
Qed.

Lemma negative_error_inj id id' :
  negative_error id = negative_error id' -> id = id'.
Proof.
  unfold negative_error. intros E. cbn in E.
  injection E as E. apply append_inj_l in E. exact E.
Qed.

Lemma filter_none {A} (p : A -> bool) l :
  Forall (fun x => p x = false) l -> filter p l = [].
Proof.
  induction 1 as [|x l Hx _ IH]; simpl; [reflexivity|].
  rewrite Hx. exact IH.
Qed.

(** A balance that stayed on its side of zero breaks neither rule 2 nor
    rule 3. *)
Lemma same_side_rules m :
  same_side m -> exits_worse m = false /\ exits_negative m = false.
Proof.
  unfold exits_worse, exits_negative.
  intros [[H0 H1]|[H0 H1]]; split; apply andb_false_iff.
  - left. apply Qltb_false. lra.
  - right. apply Qltb_false. lra.
  - right. apply Qltb_false. lra.
  - left. apply Qgtb_false. lra.
Qed.

(** * The scenarios and the properties of the specification *)

(** C10: [validatePool] of the empty list of members is
    [{ valid: true, errors: [] }]. *)
Theorem validatePool_empty :
  validatePool [] = mkPoolValidationResult true [].
Proof. reflexivity. Qed.

(** C5: [validatePool] reports the violations of the three rules one after
    the other and none hides another: the list of errors is the message
    on the total when the sum of [cbBefore] is negative, then one message
    for each member that entered in deficit and exits worse, then one for
    each member that entered in surplus and exits negative; [valid] is
    [true] exactly when that list is empty; messages of different rules
    differ and so do messages of one rule for different ships. *)
Theorem validatePool_rules (members : list PoolMember) :
  errors (validatePool members) =
    (if Qltb (sum_of cbBefore members) 0 then [total_error] else [])
    ++ map (fun m => worse_error (shipId m)) (filter exits_worse members)
    ++ map (fun m => negative_error (shipId m))
           (filter exits_negative members)
  /\ (valid (validatePool members) = true <->
      errors (validatePool members) = [])
  /\ (forall id id' : string,
        total_error <> worse_error id /\
        total_error <> negative_error id /\
        worse_error id <> negative_error id')
  /\ (forall id id' : string,
        id <> id' ->
        worse_error id <> worse_error id' /\
        negative_error id <> negative_error id').
Proof.
  split; [apply validatePool_errors|].
  split; [apply validatePool_valid|].
  split.
  - intros id id'. repeat split; intros E; apply (f_equal last_char) in E;
      rewrite ?last_char_worse, ?last_char_negative in E; discriminate E.
  - intros id id' Hne. split; intros E; apply Hne.
    + apply worse_error_inj, E.
    + apply negative_error_inj, E.
Qed.

Lemma validatePool_rules_witness :
  errors (validatePool broken_pool) =
    [total_error; worse_error "B"; negative_error "A"]
  /\ valid (validatePool broken_pool) = false
  /\ worse_error "A" <> worse_error "B".
Proof.
  destruct (validatePool_rules broken_pool) as (He & Hv & _ & Hd).
  split; [rewrite He; reflexivity|].
  split; [reflexivity|].
  apply (Hd "A"%string "B"%string). discriminate.
Defined.

(** Scenario B: the pool of [A, +10] and [B, -40] is refused, and the one
    error is the one on the total. *)
Example scenarioB_refused :
  validatePool (allocatePoolBalances scenarioB) =
  mkPoolValidationResult false [total_error].
Proof. vm_compute. reflexivity. Qed.

(** Scenario E: [A, +50] and [B, -50] cancel, and the pool is valid. *)
Example scenarioE_cancels :
  allocatePoolBalances scenarioE =
    [mkPoolMember "A" 50 0; mkPoolMember "B" (-50) 0]
  /\ validatePool (allocatePoolBalances scenarioE) =
     mkPoolValidationResult true [].
Proof. split; vm_compute; reflexivity. Qed.

Lemma final_validation members :
  errors (validatePool (allocatePoolBalances members)) =
    (if Qltb (sum_of cbBefore (allocatePoolBalances members)) 0
     then [total_error] else [])
  /\ valid (validatePool (allocatePoolBalances members)) =
     Qgeb (sum_of cbBefore (allocatePoolBalances members)) 0.
Proof.
  assert (He : errors (validatePool (allocatePoolBalances members)) =
    (if Qltb (sum_of cbBefore (allocatePoolBalances members)) 0
     then [total_error] else [])).
  { rewrite validatePool_errors.
    pose proof (final_same_side members) as Hside.
    rewrite !filter_none; [apply app_nil_r| |];
      (eapply Forall_impl; [|exact Hside]); intros m Hm;
      apply (same_side_rules m Hm). }
  split; [exact He|].
  unfold validatePool in *. cbn [valid errors] in *. rewrite He.
  unfold Qgeb, Qltb. destruct (Qle_bool 0 _); reflexivity.
Qed.

(** C1, amended: no member of a result of [allocatePoolBalances] breaks
    rule 2 or rule 3, and the result passes [validatePool] whenever its
    [cbBefore], added up in the order of the result as [validatePool] adds
    them, come to at least 0. *)
Theorem allocation_valid_on_its_total (members : list Input.t) :
  Forall (fun m => exits_worse m = false /\ exits_negative m = false)
         (allocatePoolBalances members)
  /\ (0 <= sum_of cbBefore (allocatePoolBalances members) ->
      valid (validatePool (allocatePoolBalances members)) = true).
Proof.
  split.
  - eapply Forall_impl; [|exact (final_same_side members)].
    intros m Hm. apply (same_side_rules m Hm).
  - intros Hsum. destruct (final_validation members) as [_ ->].
    apply Qgeb_true, Hsum.
Qed.

Lemma allocation_valid_on_its_total_witness :
  0 <= sum_of cbBefore (allocatePoolBalances scenarioA) /\
  valid (validatePool (allocatePoolBalances scenarioA)) = true.
Proof.
  assert (H : 0 <= sum_of cbBefore (allocatePoolBalances scenarioA))
    by (vm_compute; discriminate).
  split; [exact H|].
  exact (proj2 (allocation_valid_on_its_total scenarioA) H).
Defined.

(** C3: when the total is at least 0 and the surplus covers the deficit,
    a member that entered in surplus ends with [cbAfter >= 0] and a member
    that entered in deficit ends with [cbAfter <= 0]. *)
Theorem allocation_keeps_sides (members : list Input.t) :
  0 <= sum_of Input.cbBefore members ->
  deficit_total members <= surplus_total members ->
  forall m : PoolMember,
    In m (allocatePoolBalances members) ->
    (0 < cbBefore m -> 0 <= cbAfter m) /\
    (cbBefore m < 0 -> cbAfter m <= 0).
Proof.
  intros _ _ m Hm.
  pose proof (final_same_side members) as Hside.
  rewrite Forall_forall in Hside.
  destruct (Hside m Hm) as [[H0 H1]|[H0 H1]]; split; intros H; lra.
Qed.

Lemma allocation_keeps_sides_witness :
  0 <= sum_of Input.cbBefore scenarioA /\
  deficit_total scenarioA <= surplus_total scenarioA /\
  forall m : PoolMember,
    In m (allocatePoolBalances scenarioA) ->
    (0 < cbBefore m -> 0 <= cbAfter m) /\
    (cbBefore m < 0 -> cbAfter m <= 0).
Proof.
  assert (H : 0 <= sum_of Input.cbBefore scenarioA)
    by (vm_compute; discriminate).
  assert (H' : deficit_total scenarioA <= surplus_total scenarioA)
    by (vm_compute; discriminate).
  split; [exact H|]. split; [exact H'|].
  exact (allocation_keeps_sides scenarioA H H').
Defined.

(** C9: for members with no [shipId] twice, the result of
    [allocatePoolBalances] holds the same pairs of [shipId] and
    [cbBefore] as its argument, each as often, and no more members. *)
Theorem allocation_same_members (members : list Input.t) :
  NoDup (map Input.shipId members) ->
  Permutation (map entered (allocatePoolBalances members))
              (map submitted members)
  /\ length (allocatePoolBalances members) = length members.
Proof.
  intros _.
  assert (HP : Permutation (map entered (allocatePoolBalances members))
                           (map submitted members)).
  { rewrite final_entered. apply entry_entered. }
  split; [exact HP|].
  apply Permutation_length in HP. rewrite !length_map in HP. exact HP.
Qed.

Lemma allocation_same_members_witness :
  NoDup (map Input.shipId scenarioA) /\
  Permutation (map entered (allocatePoolBalances scenarioA))
              (map submitted scenarioA).
Proof.
  assert (H : NoDup (map Input.shipId scenarioA)).
  { cbn. repeat constructor; cbn; intuition discriminate. }
  split; [exact H | exact (proj1 (allocation_same_members scenarioA H))].
Defined.

(** C6, amended: on balances that are finite numbers
    [allocatePoolBalances] returns: the loop is left after at most
    [length members - 1] passes, in a state whose cursors have met or
    crossed, and the result has a member, with its [cbAfter], for every
    member of the argument.  ([loop_never_left] below has the balances
    on which the program does not return.) *)
Theorem allocation_terminates (members : list Input.t) :
  exists n : nat,
    (n <= length members - 1)%nat /\
    (forall k : nat,
       (k < n)%nat -> running (passes k (entry members)) = true) /\
    (surplusIdx (passes n (entry members)) >=
     deficitIdx (passes n (entry members)))%Z /\
    allocatePoolBalances members = results (passes n (entry members)) /\
    length (allocatePoolBalances members) = length members.
Proof.
  destruct (while_loop_passes (entry members)) as (n & Hn & Hw & Hstop & Hgo).
  exists n. split; [|split; [exact Hgo|split; [|split]]].
  - revert Hn. unfold gap, entry. cbn [surplusIdx deficitIdx].
    rewrite length_map, (Permutation_length (sort_perm _ members)). lia.
  - unfold running in Hstop. apply Z.ltb_ge in Hstop. lia.
  - unfold allocatePoolBalances. rewrite Hw. reflexivity.
  - rewrite <- (length_map entered), final_entered,
      (Permutation_length (entry_entered members)). apply length_map.
Qed.

(** C7 (scenario A): of [A, +100], [B, -40] and [C, -30] the allocation
    leaves [A] with 30 and [B] and [C] with 0, and the result is valid. *)
Theorem scenarioA_allocation :
  allocatePoolBalances scenarioA =
    [mkPoolMember "A" 100 30; mkPoolMember "C" (-30) 0;
     mkPoolMember "B" (-40) 0]
  /\ valid (validatePool (allocatePoolBalances scenarioA)) = true.
Proof. split; vm_compute; reflexivity. Qed.

(** C8: [isCompliant x] is [true] exactly when [x <= 89.3368], and so it
    is at 89.3368 itself. *)
Theorem isCompliant_iff :
  (forall x : Q, isCompliant x = true <-> x <= 89.3368) /\
  isCompliant 89.3368 = true.
Proof.
  split; [|reflexivity].
  intros x. unfold isCompliant, TARGET_INTENSITY_2025. apply Qleb_true.
Qed.

(** C4 as the specification has it: the balance of scenario C is not
    -340,962,000. *)
Lemma scenarioC_not_340962000 :
  ~ calculateComplianceBalance 91.0 5000 == -340962000.
Proof. vm_compute. discriminate. Qed.

(** Scenario C in binary64: the program returns -340956000.00000066,
    which is not the -340,962,000 of the specification either. *)
Lemma scenarioC_binary64 :
  Binary64.scenarioC = Binary64.scenarioC_returned /\
  PrimFloat.eqb Binary64.scenarioC Binary64.scenarioC_specified = false.
Proof. split; vm_compute; reflexivity. Qed.

(** * More on the allocator *)

Lemma while_loop_exit st : running (while_loop st) = false.
Proof.
  destruct (while_loop_passes st) as (n & _ & -> & Hstop & _). exact Hstop.
Qed.

(** *** The order of the result *)

Lemma insert_Forall {A} (c : A -> A -> Q) (P : A -> Prop) a l :
  P a -> Forall P l -> Forall P (insert c a l).
Proof.
  intros Ha Hl.
  apply (Permutation_Forall (Permutation_sym (insert_perm c a l))).
  constructor; assumption.
Qed.

Section SortByKey.
Context {A : Type} (key : A -> Q).

Let later (a b : A) : Prop := key b <= key a.
Let byKey (a b : A) : Q := key b - key a.

Lemma insert_sorted a l :
  StronglySorted later l -> StronglySorted later (insert byKey a l).
Proof.
  induction 1 as [|b l Hl IH Hb]; simpl.
  - constructor; constructor.
  - destruct (Qgtb (byKey a b) 0) eqn:E; props; unfold byKey in E.
    + constructor; [exact IH|].
      apply insert_Forall; [unfold later; lra | exact Hb].
    + constructor; [constructor; assumption|].
      constructor; [unfold later; lra|].
      eapply Forall_impl; [|exact Hb]. unfold later. intros x Hx. lra.
Qed.

Lemma sort_sorted l : StronglySorted later (sort byKey l).
Proof.
  induction l as [|a l IH]; simpl; [constructor|].
  apply insert_sorted, IH.
Qed.
End SortByKey.

Lemma StronglySorted_map {A B} (R : B -> B -> Prop) (f : A -> B) l :
  StronglySorted (fun x y => R (f x) (f y)) l ->
  StronglySorted R (map f l).
Proof.
  induction 1 as [|a l _ IH Ha]; simpl; constructor; [exact IH|].
  apply Forall_map. exact Ha.
Qed.

Lemma StronglySorted_unmap {A B} (R : B -> B -> Prop) (f : A -> B) l :
  StronglySorted R (map f l) ->
  StronglySorted (fun x y => R (f x) (f y)) l.
Proof.
  induction l as [|a l IH]; simpl; intros H; [constructor|].
  apply StronglySorted_inv in H as [Hl Ha].
  constructor; [apply IH, Hl|].
  rewrite Forall_forall in *. intros y Hy. apply Ha, in_map, Hy.
Qed.

Lemma StronglySorted_nth {A} (R : A -> A -> Prop) l d i j :
  StronglySorted R l -> (i < j < length l)%nat ->
  R (nth i l d) (nth j l d).
Proof.
  intros H. revert i j. induction H as [|a l _ IH Ha]; intros i j Hij;
    simpl in *; [lia|].
  destruct j as [|j]; [lia|]. destruct i as [|i].
  - rewrite Forall_forall in Ha. apply Ha, nth_In. lia.
  - apply IH. lia.
Qed.

Lemma entry_largest_first members : largest_first (results (entry members)).
Proof.
  rewrite entry_results. unfold largest_first.
  apply StronglySorted_map. cbn [cbBefore].
  apply (sort_sorted Input.cbBefore).
Qed.

Lemma entered_largest_first l l' :
  map entered l = map entered l' -> largest_first l -> largest_first l'.
Proof.
  unfold largest_first. intros E H.
  apply (StronglySorted_unmap (fun x y => snd y <= snd x) entered).
  rewrite <- E.
  apply (StronglySorted_map (fun x y => snd y <= snd x) entered). exact H.
Qed.

Lemma final_largest_first members :
  largest_first (allocatePoolBalances members).
Proof.
  apply (entered_largest_first (results (entry members))).
  - symmetry. apply final_entered.
  - apply entry_largest_first.
Qed.

(** *** The three ways through the body *)

Lemma get_set_other rs i k v :
  Z.to_nat i <> Z.to_nat k -> get (set_cbAfter rs i v) k = get rs k.
Proof. intros H. unfold get, set_cbAfter. apply nth_update_other, H. Qed.

Lemma get_set_same rs i v :
  (Z.to_nat i < length rs)%nat ->
  get (set_cbAfter rs i v) i =
  mkPoolMember (shipId (get rs i)) (cbBefore (get rs i)) v.
Proof. intros H. unfold get, set_cbAfter. apply nth_update_same, H. Qed.

(** A pass skips an exhausted surplus, or skips a covered deficit, or
    moves an amount [t] from the member at [surplusIdx] to the member at
    [deficitIdx], and then steps past whichever of the two reached zero. *)
Lemma body_cases st :
  let rs := results st in
  let s := surplusIdx st in
  let d := deficitIdx st in
  let cs := cbAfter (get rs s) in
  let cd := cbAfter (get rs d) in
  (cs <= 0 /\ body st = mkLoop rs (s + 1) d)
  \/ (0 < cs /\ 0 <= cd /\ body st = mkLoop rs s (d - 1))
  \/ (0 < cs /\ cd < 0 /\
      exists t : Q,
        0 < t /\ t <= cs /\ t <= - cd /\
        Z.to_nat s <> Z.to_nat d /\
        (Z.to_nat s < length rs)%nat /\ (Z.to_nat d < length rs)%nat /\
        let rs' := set_cbAfter (set_cbAfter rs s (cs - t)) d (cd + t) in
        get rs' s = mkPoolMember (shipId (get rs s)) (cbBefore (get rs s))
                                 (cs - t) /\
        get rs' d = mkPoolMember (shipId (get rs d)) (cbBefore (get rs d))
                                 (cd + t) /\
        body st =
          mkLoop rs'
            (if Qleb (cs - t) 0 then s + 1 else s)%Z
            (if Qgeb (cd + t) 0 then d - 1 else d)%Z).
Proof.
  intros rs s d cs cd. unfold body. fold rs s d.
  destruct (Qleb (cbAfter (get rs s)) 0) eqn:Hs.
  { left. props. split; [exact Hs | reflexivity]. }
  destruct (Qgeb (cbAfter (get rs d)) 0) eqn:Hd.
  { right; left. props. repeat split; assumption. }
  right; right. props. fold cs in Hs. fold cd in Hd.
  split; [exact Hs|]. split; [exact Hd|].
  destruct (transfer_reads rs s d Hs Hd) as (Hsd & Hsr & Hdr & E1 & Es & Ed).
  destruct (transfer_amount cs cd Hs Hd) as (Ht0 & Hts & Htd).
  fold cs cd in E1, Es, Ed |- *.
  exists (Qmin cs (Qabs cd)).
  repeat (split; [assumption|]).
  cbv zeta. rewrite Es, Ed, E1. fold cd.
  split; [|split; [|reflexivity]].
  - rewrite get_set_other by congruence. apply get_set_same, Hsr.
  - rewrite get_set_same
      by (rewrite set_cbAfter_length; exact Hdr).
    rewrite get_set_other by exact Hsd. reflexivity.
Qed.

Lemma get_transfer_other rs s d k v w :
  Z.to_nat k <> Z.to_nat s -> Z.to_nat k <> Z.to_nat d ->
  get (set_cbAfter (set_cbAfter rs s v) d w) k = get rs k.
Proof.
  intros Hs Hd. rewrite !get_set_other by congruence. reflexivity.
Qed.

(** *** What the cursors leave behind *)

Lemma body_settled st :
  cursors_in_range st -> running st = true ->
  settled st -> settled (body st).
Proof.
  intros [Hs0 _] Hrun [HL HR]. unfold running in Hrun.
  apply Z.ltb_lt in Hrun.
  destruct (body_cases st) as [(Hs & ->)|[(Hs & Hd & ->)|(Hs & Hd & C)]];
    unfold settled, untouched; cbn [results surplusIdx deficitIdx].
  - split; [|exact HR]. intros k Hk.
    destruct (Z.eq_dec k (surplusIdx st)) as [->|Hne];
      [exact Hs | apply HL; lia].
  - split; [exact HL|]. intros k Hk.
    destruct (Z.eq_dec k (deficitIdx st)) as [->|Hne];
      [exact Hd | apply HR; lia].
  - destruct C as (t & Ht0 & Hts & Htd & Hsd & Hsr & Hdr & Es & Ed & ->).
    unfold settled, untouched; cbn [results surplusIdx deficitIdx]. split; intros k Hk.
    + destruct (Z.eq_dec k (surplusIdx st)) as [->|Hne].
      * rewrite Es. cbn [cbAfter].
        destruct (Qleb _ 0) eqn:E in Hk; [props; exact E | lia].
      * rewrite get_transfer_other; [apply HL| |];
          destruct (Qleb _ 0) in Hk; lia.
    + destruct (Z.eq_dec k (deficitIdx st)) as [->|Hne].
      * rewrite Ed. cbn [cbAfter].
        destruct (Qgeb _ 0) eqn:E in Hk; [props; exact E | lia].
      * rewrite get_transfer_other; [apply HR| |];
          destruct (Qgeb _ 0) in Hk; lia.
Qed.

Lemma body_untouched st :
  cursors_in_range st -> running st = true ->
  Forall same_side (results st) ->
  untouched st -> untouched (body st).
Proof.
  intros [Hs0 _] Hrun Hside [HL HR]. unfold running in Hrun.
  apply Z.ltb_lt in Hrun.
  destruct (body_cases st) as [(Hs & ->)|[(Hs & Hd & ->)|(Hs & Hd & C)]];
    unfold settled, untouched; cbn [results surplusIdx deficitIdx].
  - split; [|exact HR]. intros k Hk. apply HL. lia.
  - split; [exact HL|]. intros k Hk. apply HR. lia.
  - destruct C as (t & Ht0 & Hts & Htd & Hsd & Hsr & Hdr & Es & Ed & ->).
    unfold settled, untouched; cbn [results surplusIdx deficitIdx].
    pose proof (same_side_get _ (surplusIdx st) Hside) as Hss.
    pose proof (same_side_get _ (deficitIdx st) Hside) as Hsd'.
    unfold same_side in Hss, Hsd'.
    split; intros k Hk Hb.
    + assert (Hks : (surplusIdx st < k)%Z)
        by (destruct (Qleb _ 0) in Hk; lia).
      destruct (Z.eq_dec k (deficitIdx st)) as [->|Hne].
      * rewrite Ed in Hb. cbn [cbBefore] in Hb. lra.
      * rewrite get_transfer_other in * by lia. apply HL; assumption.
    + assert (Hkd : (0 <= k < deficitIdx st)%Z)
        by (destruct (Qgeb _ 0) in Hk; lia).
      destruct (Z.eq_dec k (surplusIdx st)) as [->|Hne].
      * rewrite Es in Hb. cbn [cbBefore] in Hb. lra.
      * rewrite get_transfer_other in * by lia. apply HR; assumption.
Qed.

(** All that a pass of a running loop keeps. *)
Definition kept (st : Loop) : Prop :=
  cursors_in_range st /\ Forall same_side (results st) /\
  settled st /\ untouched st.

Lemma body_kept st : running st = true -> kept st -> kept (body st).
Proof.
  intros Hrun (Hr & Hside & Hset & Hun). repeat split.
  - apply body_cursors_in_range, Hr.
  - apply body_cursors_in_range, Hr.
  - apply body_same_side, Hside.
  - apply (body_settled st Hr Hrun Hset).
  - apply (body_settled st Hr Hrun Hset).
  - apply (body_untouched st Hr Hrun Hside Hun).
  - apply (body_untouched st Hr Hrun Hside Hun).
Qed.

Lemma entry_kept members : kept (entry members).
Proof.
  assert (Heq : Forall (fun m => cbAfter m = cbBefore m)
                       (results (entry members))).
  { rewrite entry_results. apply Forall_forall. intros m Hm.
    apply in_map_iff in Hm as (x & <- & _). reflexivity. }
  assert (Hget : forall k, cbAfter (get (results (entry members)) k) =
                           cbBefore (get (results (entry members)) k)).
  { intros k. unfold get.
    destruct (Nat.lt_ge_cases (Z.to_nat k)
                (length (results (entry members)))) as [Hlt|Hge].
    - rewrite Forall_forall in Heq. apply Heq, nth_In, Hlt.
    - rewrite nth_overflow by exact Hge. reflexivity. }
  split; [|split; [|split]].
  - unfold cursors_in_range, entry; cbn. lia.
  - eapply Forall_impl; [|exact Heq]. intros m Hm. unfold same_side.
    rewrite Hm. destruct (Qlt_le_dec (cbBefore m) 0); [right|left]; lra.
  - split; intros k Hk.
    + cbn [surplusIdx entry] in Hk. lia.
    + unfold get. rewrite nth_overflow; [cbn; lra|].
      cbn [deficitIdx results entry] in Hk |- *. lia.
  - split; intros k _ _; rewrite Hget; reflexivity.
Qed.

Lemma final_kept members : kept (while_loop (entry members)).
Proof.
  apply (while_loop_invariant kept); [apply body_kept | apply entry_kept].
Qed.

(** *** Sums of balances that are bounded one by the other *)

Lemma sum_of_le {A} (f g : A -> Q) l :
  Forall (fun x => f x <= g x) l -> sum_of f l <= sum_of g l.
Proof.
  induction 1 as [|x l Hx _ IH]; [apply Qle_refl|].
  rewrite !sum_of_cons. lra.
Qed.

Lemma sum_of_squeeze {A} (f g : A -> Q) l :
  Forall (fun x => f x <= g x) l -> sum_of g l <= sum_of f l ->
  Forall (fun x => f x == g x) l.
Proof.
  induction 1 as [|x l Hx Hl IH]; intros Hsum; constructor.
  - rewrite !sum_of_cons in Hsum. pose proof (sum_of_le f g l Hl). lra.
  - apply IH. rewrite !sum_of_cons in Hsum.
    pose proof (sum_of_le f g l Hl). lra.
Qed.

(** *** The result *)

Lemma final_conserved members :
  sum_of cbAfter (allocatePoolBalances members) ==
  sum_of Input.cbBefore members.
Proof.
  rewrite final_sum, entry_results, sum_of_map. cbn [cbAfter].
  apply sum_of_perm, sort_perm.
Qed.

Lemma get_nth rs (k : nat) :
  get rs (Z.of_nat k) = nth k rs (mkPoolMember EmptyString 0 0).
Proof. unfold get. rewrite Nat2Z.id. reflexivity. Qed.

(** When the loop is left, no surplus and no deficit are left together:
    a member that still holds a surplus and one that is still in deficit
    would lie on the wrong sides of the cursors for the order of the
    sort. *)
Lemma final_no_mixed members a b :
  In a (allocatePoolBalances members) ->
  In b (allocatePoolBalances members) ->
  0 < cbAfter a -> cbAfter b < 0 -> False.
Proof.
  unfold allocatePoolBalances. intros Ha Hb Hpos Hneg.
  pose proof (final_largest_first members) as Hsorted.
  pose proof (final_same_side members) as Hside.
  unfold allocatePoolBalances in Hsorted, Hside.
  destruct (final_kept members) as (_ & _ & [HL HR] & _).
  pose proof (while_loop_exit (entry members)) as Hexit.
  unfold running in Hexit. apply Z.ltb_ge in Hexit.
  set (st := while_loop (entry members)) in *.
  rewrite Forall_forall in Hside.
  pose proof (Hside a Ha) as Hsa. pose proof (Hside b Hb) as Hsb.
  apply (In_nth _ _ (mkPoolMember EmptyString 0 0)) in Ha as (i & Hi & Ea).
  apply (In_nth _ _ (mkPoolMember EmptyString 0 0)) in Hb as (j & Hj & Eb).
  assert (His : (surplusIdx st <= Z.of_nat i)%Z).
  { destruct (Z_lt_le_dec (Z.of_nat i) (surplusIdx st)) as [Hlt|]; [|lia].
    specialize (HL (Z.of_nat i) ltac:(lia)).
    rewrite get_nth, Ea in HL. lra. }
  assert (Hjd : (Z.of_nat j <= deficitIdx st)%Z).
  { destruct (Z_lt_le_dec (deficitIdx st) (Z.of_nat j)) as [Hlt|]; [|lia].
    specialize (HR (Z.of_nat j) Hlt).
    rewrite get_nth, Eb in HR. lra. }
  unfold same_side in Hsa, Hsb.
  destruct (Nat.eq_dec j i) as [->|Hne].
  - rewrite Ea in Eb. subst b. lra.
  - pose proof (StronglySorted_nth _ _ (mkPoolMember EmptyString 0 0)
                  j i Hsorted ltac:(lia)) as Hji.
    cbv beta in Hji. rewrite Ea, Eb in Hji. lra.
Qed.

Lemma final_one_side members :
  Forall (fun m => cbAfter m <= 0) (allocatePoolBalances members) \/
  Forall (fun m => 0 <= cbAfter m) (allocatePoolBalances members).
Proof.
  assert (Hdec : forall m : PoolMember,
                   {cbAfter m <= 0} + {~ cbAfter m <= 0}).
  { intros m. destruct (Qlt_le_dec 0 (cbAfter m)) as [H|H];
      [right; apply Qlt_not_le, H | left; exact H]. }
  destruct (Forall_Exists_dec (fun m => cbAfter m <= 0) Hdec
              (allocatePoolBalances members)) as [Hall|Hex];
    [left; exact Hall|].
  right. apply Exists_exists in Hex as (a & Ha & Hpos).
  apply Qnot_le_lt in Hpos.
  apply Forall_forall. intros b Hb.
  destruct (Qlt_le_dec (cbAfter b) 0) as [Hneg|Hge]; [|exact Hge].
  exfalso. exact (final_no_mixed members a b Ha Hb Hpos Hneg).
Qed.

(** * Further properties of the allocator *)







Lemma final_cbBefore_Forall (P : Q -> Prop) members :
  Forall (fun m => P (Input.cbBefore m)) members ->
  Forall (fun m => P (cbBefore m)) (allocatePoolBalances members).
Proof.
  intros H.
  assert (Hs : Forall (fun p => P (snd p)) (map submitted members)).
  { rewrite Forall_forall in *. intros p Hp.
    apply in_map_iff in Hp as (x & <- & Hx). apply H, Hx. }
  apply (Permutation_Forall (Permutation_sym (entry_entered members))) in Hs.
  rewrite <- final_entered in Hs.
  rewrite Forall_forall in *. intros m Hm.
  apply (Hs (entered m)), in_map, Hm.
Qed.

Lemma final_unchanged members :
  Forall (fun m => 0 <= Input.cbBefore m) members \/
  Forall (fun m => Input.cbBefore m <= 0) members ->
  Forall (fun m => cbAfter m == cbBefore m) (allocatePoolBalances members).
Proof.
  pose proof (final_same_side members) as Hside.
  pose proof (final_conserved members) as Hsum.
  rewrite <- final_sum_cbBefore in Hsum.
  intros [H|H].
  - apply (final_cbBefore_Forall (fun q => 0 <= q)) in H.
    apply sum_of_squeeze; [|rewrite Hsum; apply Qle_refl].
    rewrite Forall_forall in *. intros m Hm.
    specialize (H m Hm). specialize (Hside m Hm).
    unfold same_side in Hside. lra.
  - apply (final_cbBefore_Forall (fun q => q <= 0)) in H.
    assert (Hz : Forall (fun m => cbBefore m == cbAfter m)
                        (allocatePoolBalances members)).
    { apply sum_of_squeeze; [|rewrite Hsum; apply Qle_refl].
      rewrite Forall_forall in *. intros m Hm.
      specialize (H m Hm). specialize (Hside m Hm).
      unfold same_side in Hside. lra. }
    eapply Forall_impl; [|exact Hz]. intros m Hm. cbv beta in *.
    symmetry. exact Hm.
Qed.

(** X7: a pool with no deficit, or one with no surplus, is returned as it
    entered: every member leaves with the balance it entered with. *)
Theorem allocation_of_one_sided_pool (members : list Input.t) :
  Forall (fun m => 0 <= Input.cbBefore m) members \/
  Forall (fun m => Input.cbBefore m <= 0) members ->
  Forall (fun m => cbAfter m == cbBefore m) (allocatePoolBalances members).
Proof. exact (final_unchanged members). Qed.

Lemma allocation_of_one_sided_pool_witness :
  (Forall (fun m => 0 <= Input.cbBefore m) [Input.mk "A" 10; Input.mk "B" 0]
   \/ Forall (fun m => Input.cbBefore m <= 0)
        [Input.mk "A" 10; Input.mk "B" 0]) /\
  Forall (fun m => cbAfter m == cbBefore m)
         (allocatePoolBalances [Input.mk "A" 10; Input.mk "B" 0]).
Proof.
  assert (H : Forall (fun m => 0 <= Input.cbBefore m)
                [Input.mk "A" 10; Input.mk "B" 0]
              \/ Forall (fun m => Input.cbBefore m <= 0)
                   [Input.mk "A" 10; Input.mk "B" 0]).
  { left. repeat constructor; cbn; discriminate. }
  split; [exact H | exact (allocation_of_one_sided_pool _ H)].
Defined.

(** X8: allocating is idempotent: when the members of a result are
    submitted again with the balances they left with, nothing moves any
    more. *)
Theorem allocation_idempotent (members : list Input.t) :
  Forall (fun m => cbAfter m == cbBefore m)
         (allocatePoolBalances (resubmit (allocatePoolBalances members))).
Proof.
  apply final_unchanged. unfold resubmit.
  destruct (final_one_side members) as [H|H]; [right|left];
    apply Forall_map; exact H.
Qed.

(** What the state in which the loop is left says of the member at a
    position of the result. *)
Lemma final_at members (k : nat) :
  let st := while_loop (entry members) in
  let m := nth k (allocatePoolBalances members)
               (mkPoolMember EmptyString 0 0) in
  ((Z.of_nat k < surplusIdx st)%Z -> cbAfter m <= 0) /\
  ((deficitIdx st < Z.of_nat k)%Z -> 0 <= cbAfter m) /\
  ((surplusIdx st < Z.of_nat k)%Z -> 0 < cbBefore m ->
   cbAfter m == cbBefore m) /\
  ((Z.of_nat k < deficitIdx st)%Z -> cbBefore m < 0 ->
   cbAfter m == cbBefore m).
Proof.
  intros st m. unfold m, allocatePoolBalances. fold st.
  rewrite <- get_nth.
  destruct (final_kept members) as (_ & _ & [HL HR] & [UL UR]).
  change (while_loop (entry members)) with st in HL, HR, UL, UR.
  repeat split; intros Hk.
  - apply HL. lia.
  - apply HR. lia.
  - apply UL. lia.
  - apply UR. lia.
Qed.

(** X9: surplus is taken from the largest surplus first: a member gives
    up part of its surplus only when every member before it in the result
    has been drawn down to 0. *)
Theorem allocation_draws_largest_surplus_first
    (members : list Input.t) (l1 l2 : list PoolMember) (m : PoolMember) :
  allocatePoolBalances members = l1 ++ m :: l2 ->
  0 < cbBefore m -> ~ cbAfter m == cbBefore m ->
  Forall (fun x => cbAfter x == 0) l1.
Proof.
  intros E Hb Hne.
  pose proof (final_largest_first members) as Hsorted.
  pose proof (final_same_side members) as Hside.
  pose proof (final_at members) as Hat. cbv zeta in Hat.
  rewrite E in Hsorted, Hside, Hat.
  set (dflt := mkPoolMember EmptyString 0 0) in *.
  assert (Em : nth (length l1) (l1 ++ m :: l2) dflt = m)
    by (rewrite app_nth2, Nat.sub_diag by lia; reflexivity).
  assert (Hi : (Z.of_nat (length l1)
                <= surplusIdx (while_loop (entry members)))%Z).
  { destruct (Hat (length l1)) as (_ & _ & U & _). rewrite Em in U.
    destruct (Z_lt_le_dec (surplusIdx (while_loop (entry members)))
                (Z.of_nat (length l1))) as [Hlt|]; [|lia].
    exfalso. apply Hne, U; assumption. }
  apply Forall_forall. intros x Hx.
  apply (In_nth _ _ dflt) in Hx as (k & Hk & Ex).
  assert (Ek : nth k (l1 ++ m :: l2) dflt = x)
    by (rewrite app_nth1 by lia; exact Ex).
  destruct (Hat k) as (L & _). rewrite Ek in L. specialize (L ltac:(lia)).
  pose proof (StronglySorted_nth _ _ dflt k (length l1) Hsorted
                ltac:(rewrite length_app; simpl; lia)) as Hle.
  cbv beta in Hle. rewrite Ek, Em in Hle.
  rewrite Forall_forall in Hside.
  assert (Hsx : same_side x)
    by (apply Hside, in_or_app; left; rewrite <- Ex; apply nth_In, Hk).
  unfold same_side in Hsx. lra.
Qed.

Lemma allocation_draws_largest_surplus_first_witness :
  Forall (fun x => cbAfter x == 0)
         [mkPoolMember "A" 100 0].
Proof.
  apply (allocation_draws_largest_surplus_first
           [Input.mk "A" 100; Input.mk "B" 50; Input.mk "C" (-120)]
           [mkPoolMember "A" 100 0] [mkPoolMember "C" (-120) 0]
           (mkPoolMember "B" 50 30)).
  - vm_compute. reflexivity.
  - vm_compute. reflexivity.
  - vm_compute. discriminate.
Defined.

(** X10: deficit is covered from the largest deficit first: a member has
    part of its deficit covered only when every member after it in the
    result has been brought up to 0. *)
Theorem allocation_covers_largest_deficit_first
    (members : list Input.t) (l1 l2 : list PoolMember) (m : PoolMember) :
  allocatePoolBalances members = l1 ++ m :: l2 ->
  cbBefore m < 0 -> ~ cbAfter m == cbBefore m ->
  Forall (fun x => cbAfter x == 0) l2.
Proof.
  intros E Hb Hne.
  pose proof (final_largest_first members) as Hsorted.
  pose proof (final_same_side members) as Hside.
  pose proof (final_at members) as Hat. cbv zeta in Hat.
  rewrite E in Hsorted, Hside, Hat.
  set (dflt := mkPoolMember EmptyString 0 0) in *.
  assert (Em : nth (length l1) (l1 ++ m :: l2) dflt = m)
    by (rewrite app_nth2, Nat.sub_diag by lia; reflexivity).
  assert (Hi : (deficitIdx (while_loop (entry members))
                <= Z.of_nat (length l1))%Z).
  { destruct (Hat (length l1)) as (_ & _ & _ & U). rewrite Em in U.
    destruct (Z_lt_le_dec (Z.of_nat (length l1))
                (deficitIdx (while_loop (entry members)))) as [Hlt|]; [|lia].
    exfalso. apply Hne, U; assumption. }
  apply Forall_forall. intros x Hx.
  apply (In_nth _ _ dflt) in Hx as (k & Hk & Ex).
  assert (Ek : nth (length l1 + S k) (l1 ++ m :: l2) dflt = x).
  { rewrite app_nth2 by lia.
    replace (length l1 + S k - length l1)%nat with (S k) by lia.
    exact Ex. }
  destruct (Hat (length l1 + S k)%nat) as (_ & R & _). rewrite Ek in R.
  specialize (R ltac:(lia)).
  pose proof (StronglySorted_nth _ _ dflt (length l1) (length l1 + S k)
                Hsorted ltac:(rewrite length_app; simpl; lia)) as Hle.
  cbv beta in Hle. rewrite Ek, Em in Hle.
  rewrite Forall_forall in Hside.
  assert (Hsx : same_side x).
  { apply Hside, in_or_app; right; right. rewrite <- Ex. apply nth_In, Hk. }
  unfold same_side in Hsx. lra.
Qed.

Lemma allocation_covers_largest_deficit_first_witness :
  Forall (fun x => cbAfter x == 0)
         [mkPoolMember "C" (-80) 0].
Proof.
  apply (allocation_covers_largest_deficit_first
           [Input.mk "A" 100; Input.mk "B" (-50); Input.mk "C" (-80)]
           [mkPoolMember "A" 100 0] [mkPoolMember "C" (-80) 0]
           (mkPoolMember "B" (-50) (-30))).
  - vm_compute. reflexivity.
  - vm_compute. reflexivity.
  - vm_compute. discriminate.
Defined.

(** * The compliance calculator *)

(** X11: the sign of the balance tells the compliance: for a fuel
    consumption that is not negative, a balance above 0 is that of an
    intensity within the target, and a balance below 0 that of an
    intensity above it. *)
Theorem balance_sign_tells_compliance (ghgIntensity fuelConsumption : Q) :
  0 <= fuelConsumption ->
  (0 < calculateComplianceBalance ghgIntensity fuelConsumption ->
   isCompliant ghgIntensity = true) /\
  (calculateComplianceBalance ghgIntensity fuelConsumption < 0 ->
   isCompliant ghgIntensity = false).
Proof.
  intros Hf. unfold isCompliant, calculateComplianceBalance,
    ENERGY_CONVERSION_FACTOR.
  set (T := TARGET_INTENSITY_2025). split; intros H.
  - apply Qleb_true.
    destruct (Qlt_le_dec T ghgIntensity) as [Hlt|Hle]; [|exact Hle].
    exfalso. nra.
  - apply Qleb_false.
    destruct (Qlt_le_dec T ghgIntensity) as [Hlt|Hle]; [exact Hlt|].
    exfalso. nra.
Qed.

Lemma balance_sign_tells_compliance_witness :
  0 <= 5000 /\ calculateComplianceBalance 91 5000 < 0 /\
  isCompliant 91 = false.
Proof.
  assert (Hf : 0 <= 5000) by discriminate.
  assert (Hb : calculateComplianceBalance 91 5000 < 0) by reflexivity.
  split; [exact Hf|]. split; [exact Hb|].
  exact (proj2 (balance_sign_tells_compliance 91 5000 Hf) Hb).
Defined.

(** X12: for a given fuel consumption between 0 and 1e300, a larger
    intensity never gives a larger balance.  (The bound keeps
    [fuelConsumption * 41000] a finite number of the program.) *)
Theorem balance_decreases_with_intensity (g1 g2 fuelConsumption : Q) :
  0 <= fuelConsumption -> fuelConsumption <= 1e300 -> g1 <= g2 ->
  calculateComplianceBalance g2 fuelConsumption <=
  calculateComplianceBalance g1 fuelConsumption.
Proof.
  intros Hf _ Hg. unfold calculateComplianceBalance, ENERGY_CONVERSION_FACTOR.
  set (T := TARGET_INTENSITY_2025). nra.
Qed.

Lemma balance_decreases_with_intensity_witness :
  0 <= 5000 /\ 5000 <= 1e300 /\ 88 <= 91 /\
  calculateComplianceBalance 91 5000 <= calculateComplianceBalance 88 5000.
Proof.
  assert (Hf : 0 <= 5000) by discriminate.
  assert (Hb : 5000 <= 1e300) by (vm_compute; discriminate).
  assert (Hg : 88 <= 91) by discriminate.
  split; [exact Hf|]. split; [exact Hb|]. split; [exact Hg|].
  exact (balance_decreases_with_intensity 88 91 5000 Hf Hb Hg).
Defined.

(** X13: for fuel consumptions between -1e300 and 1e300, more fuel makes
    the balance larger in size and keeps its sign: at an intensity within
    the target the balance grows with the fuel consumption, above the
    target it falls.  (The bounds keep [fuelConsumption * 41000] a finite
    number of the program.) *)
Theorem balance_scales_with_fuel (ghgIntensity f1 f2 : Q) :
  -1e300 <= f1 -> f1 <= f2 -> f2 <= 1e300 ->
  if isCompliant ghgIntensity
  then calculateComplianceBalance ghgIntensity f1 <=
       calculateComplianceBalance ghgIntensity f2
  else calculateComplianceBalance ghgIntensity f2 <=
       calculateComplianceBalance ghgIntensity f1.
Proof.
  intros _ Hf _. unfold isCompliant, calculateComplianceBalance,
    ENERGY_CONVERSION_FACTOR.
  set (T := TARGET_INTENSITY_2025).
  destruct (Qleb ghgIntensity T) eqn:E; props; nra.
Qed.

Lemma balance_scales_with_fuel_witness :
  -1e300 <= 4800 /\ 4800 <= 5000 /\ 5000 <= 1e300 /\
  calculateComplianceBalance 91 5000 <= calculateComplianceBalance 91 4800.
Proof.
  assert (Hl : -1e300 <= 4800) by (vm_compute; discriminate).
  assert (Hf : 4800 <= 5000) by discriminate.
  assert (Hu : 5000 <= 1e300) by (vm_compute; discriminate).
  split; [exact Hl|]. split; [exact Hf|]. split; [exact Hu|].
  exact (balance_scales_with_fuel 91 4800 5000 Hl Hf Hu).
Defined.

(** X15: against a positive baseline the sign of [calculatePercentDiff]
    tells which intensity is the lower: it is negative exactly for a
    comparison below the baseline, 0 exactly for one equal to it, and
    positive exactly for one above it. *)
Theorem percentDiff_sign (comparison baseline : Q) :
  0 < baseline ->
  (calculatePercentDiff comparison baseline < 0 <-> comparison < baseline)
  /\ (calculatePercentDiff comparison baseline == 0 <->
      comparison == baseline)
  /\ (0 < calculatePercentDiff comparison baseline <->
      baseline < comparison).
Proof.
  intros Hb. unfold calculatePercentDiff.
  assert (Hd : comparison / baseline * baseline == comparison)
    by (field; lra).
  set (r := comparison / baseline) in *.
  repeat split; intros H.
  - nra.
  - destruct (Qlt_le_dec r 1); [lra|]. exfalso. nra.
  - nra.
  - assert (r == 1) by (apply (Qmult_inj_r _ _ baseline); lra). lra.
  - nra.
  - destruct (Qlt_le_dec 1 r); [lra|]. exfalso. nra.
Qed.

Lemma percentDiff_sign_witness :
  0 < 91 /\ calculatePercentDiff 88 91 < 0.
Proof.
  assert (H : 0 < 91) by reflexivity.
  split; [exact H|].
  apply (proj1 (percentDiff_sign 88 91 H)). reflexivity.
Defined.

(** * POST /api/pools *)

Section PoolsFacts.
Variable getRouteByRouteId : string -> option Route.t.
Variable getShipCompliance : string -> Z -> option ShipCompliance.t.

Let verify := verifyMembers getRouteByRouteId getShipCompliance.
Let post := postPools getRouteByRouteId getShipCompliance.

Lemma verifyMembers_shipIds year members members' verified :
  map Input.shipId members = map Input.shipId members' ->
  verify year members verified = verify year members' verified.
Proof.
  revert members' verified.
  induction members as [|m l IH]; intros [|m' l'] verified E;
    simpl in E; try discriminate; [reflexivity|].
  injection E as Em El. unfold verify in *. simpl. rewrite Em.
  destruct (getRouteByRouteId (Input.shipId m')); [|reflexivity].
  apply IH, El.
Qed.



(** X16: the balances a client submits are never used: two requests that
    name the same ships in the same order get the same response, whatever
    [cbBefore] they carry. *)
Theorem postPools_ignores_submitted_balances
    (year : option Z) (members members' : list Input.t) :
  map Input.shipId members = map Input.shipId members' ->
  post year (Some members) = post year (Some members').
Proof.
  intros E. unfold post, postPools. destruct year as [year|]; [|reflexivity].
  assert (El : length members = length members')
    by (rewrite <- (length_map Input.shipId members), E; apply length_map).
  rewrite El. destruct (_ || _); [reflexivity|].
  fold verify. rewrite (verifyMembers_shipIds year members members' [] E).
  reflexivity.
Qed.


(** X18: when the validation refuses a pool it is for its total, and for
    nothing else: a response that carries a list of errors is the
    response [Pool validation failed], and its list is the one message
    on the total. *)
Theorem postPools_refused_pool
    (year : option Z) (members : option (list Input.t))
    (error : string) (errs : list string) :
  post year members = Status400 error (Some errs) ->
  error = "Pool validation failed"%string /\ errs = [total_error].
Proof.
  unfold post, postPools.
  destruct year as [year|]; [|discriminate].
  destruct members as [members|]; [|discriminate].
  destruct (_ || _); [discriminate|].
  fold verify. destruct (verify year members []) as [e|verified];
    [discriminate|].
  destruct (final_validation verified) as [Herrors Hvalid].
  rewrite Hvalid, Herrors. unfold Qgeb, Qltb.
  destruct (Qle_bool 0 _); cbn [negb]; [discriminate|].
  intros E. injection E as <- <-. split; reflexivity.
Qed.

End PoolsFacts.

Lemma postPools_ignores_submitted_balances_witness :
  postPools seedRoutes oneBalance (Some 2025%Z)
    (Some [Input.mk "R001" 0; Input.mk "R002" 0]) =
  postPools seedRoutes oneBalance (Some 2025%Z)
    (Some [Input.mk "R001" 999; Input.mk "R002" 999]).
Proof.
  apply postPools_ignores_submitted_balances. reflexivity.
Defined.


Lemma postPools_refused_pool_witness :
  exists error errs,
    postPools seedRoutes oneBalance (Some 2024%Z)
      (Some [Input.mk "R001" 0; Input.mk "R002" 0])
    = Status400 error (Some errs) /\
    error = "Pool validation failed"%string /\ errs = [total_error].
Proof.
  eexists. eexists.
  assert (E : postPools seedRoutes oneBalance (Some 2024%Z)
                (Some [Input.mk "R001" 0; Input.mk "R002" 0])
              = Status400 _ (Some _)) by (vm_compute; reflexivity).
  split; [exact E|].
  exact (postPools_refused_pool seedRoutes oneBalance _ _ _ _ E).
Defined.

(** * The program on binary64 *)

Section OnBinary64.
Import Floats.
Local Open Scope float_scope.
#[local] Set Warnings "-inexact-float".

(** C4 (scenario C), amended: [calculateComplianceBalance(91.0, 5000)]
    returns -340956000.00000066, the value of
    [(89.3368 - 91.0) * 5000 * 41000] in binary64, a deficit. *)
Theorem scenarioC_balance :
  Binary64.calculateComplianceBalance 91.0 5000 = -340956000.00000066
  /\ Binary64.calculateComplianceBalance 91.0 5000
     = (89.3368 - 91.0) * 5000 * 41000
  /\ (Binary64.calculateComplianceBalance 91.0 5000 <? 0) = true.
Proof. repeat split; vm_compute; reflexivity. Qed.

(** C1 as the specification has it fails on the program: the balances of
    [order_pool] come to 0 as [reduce] adds them in the order given, and
    the result of the allocation is refused, its [cbBefore] coming to -1
    in the order of the sort. *)
Lemma validity_depends_on_order :
  (0 <=? Binary64.sum_cbBefore Binary64.order_pool) = true /\
  option_map (fun allocated =>
                Binary64.valid (Binary64.validatePool allocated))
             (Binary64.allocatePoolBalances 8 Binary64.order_pool)
  = Some false.
Proof. split; vm_compute; reflexivity. Qed.


(** The same on the balances that the calculator gives four routes of
    the seed. *)
Example seed_pool_not_conserved :
  Binary64.sum_cbBefore Binary64.seed_pool = 221075279.99999732 /\
  option_map Binary64.sum_cbAfter
             (Binary64.allocatePoolBalances 8 Binary64.seed_pool)
  = Some 221075279.99999735.
Proof. split; vm_compute; reflexivity. Qed.

Lemma passes_of_fixed (st : Binary64.Loop) (n : nat) :
  Binary64.body st = st -> Binary64.passes n st = st.
Proof.
  intros H. induction n as [|n IH]; simpl; [reflexivity|].
  rewrite H. exact IH.
Qed.

Lemma running_forever (st : Binary64.Loop) :
  Binary64.running st = true ->
  Binary64.running (Binary64.body st) = true ->
  Binary64.body (Binary64.body st) = Binary64.body st ->
  forall n : nat, Binary64.running (Binary64.passes n st) = true.
Proof.
  intros H0 H1 Hfix [|n]; simpl; [exact H0|].
  rewrite passes_of_fixed by exact Hfix. exact H1.
Qed.

(** C6 as the specification has it fails on the program: on a surplus
    and a deficit that are both infinite, and on a balance that is [NaN],
    the transfer leaves [NaN] at both cursors, of which neither [<= 0] nor
    [>= 0] holds: no cursor moves, and no number of passes leaves the
    loop. *)
Lemma loop_never_left :
  (~ exists n : nat,
       Binary64.running
         (Binary64.passes n (Binary64.entry Binary64.infinite_pool)) = false)
  /\
  (~ exists n : nat,
       Binary64.running
         (Binary64.passes n (Binary64.entry Binary64.nan_pool)) = false).
Proof.
  split; intros [n Hn];
    rewrite running_forever in Hn;
    try discriminate Hn; vm_compute; reflexivity.
Qed.

End OnBinary64.
